(** * useShortcuts: a shallow embedding of [src/useShortcuts.ts]

    The TypeScript module builds a lookup table from a list of shortcut
    definitions ([generateShorcutMap]), turns a keyboard event into a table
    key ([getEventMapKey]), and registers a [keydown] handler that runs the
    matched definition's action ([useShortcuts]).

    The embedding keeps what the source does to memory: shortcut
    definitions and their [modifiers] arrays live in a heap and are handled
    by reference, [Array.prototype.sort] sorts in place, and the console,
    the invoked actions and the document's listeners are part of the
    world that the code threads through. *)

From Stdlib Require Import Ascii String.
From stdpp Require Import base option list sorting strings gmap.

Local Open Scope string_scope.
Local Open Scope list_scope.

(** ** JavaScript built-ins used by the module *)

Module Js.

(** [String.prototype.toLowerCase] on the ASCII range: the code units
    [A]..[Z] are mapped to [a]..[z], every other one is kept. *)
Definition lower_ascii (c : ascii) : ascii :=
  let n := nat_of_ascii c in
  if (65 <=? n)%nat && (n <=? 90)%nat then ascii_of_nat (n + 32) else c.

Fixpoint toLowerCase (s : string) : string :=
  match s with
  | EmptyString => EmptyString
  | String c s' => String (lower_ascii c) (toLowerCase s')
  end.

(** [Array.prototype.join] on an array of strings. *)
Fixpoint join (sep : string) (l : list string) : string :=
  match l with
  | [] => ""
  | [x] => x
  | x :: xs => x +:+ sep +:+ join sep xs
  end.

(** The double quote, as a one-character string. *)
Definition dquote : string := String (ascii_of_nat 34) EmptyString.

(** Truthiness of an optional boolean ([silent?: boolean]). *)
Definition truthy (b : option bool) : bool :=
  match b with
  | Some true => true
  | _ => false
  end.

End Js.

(** ** Data model *)

Definition LOG_TAG : string := "#hooks #useShortcuts".

Inductive ModifierKey := ctrlKey | shiftKey | metaKey | altKey.

Global Instance ModifierKey_eq_dec : EqDecision ModifierKey.
Proof. solve_decision. Defined.

Definition MODIFIERS_KEYS : list ModifierKey := [ctrlKey; shiftKey; metaKey; altKey].

(** A [ModifierKey] is a string at run time. *)
Definition modifier_name (m : ModifierKey) : string :=
  match m with
  | ctrlKey => "ctrlKey"
  | shiftKey => "shiftKey"
  | metaKey => "metaKey"
  | altKey => "altKey"
  end.

(** [Array.prototype.sort] without a comparator orders the elements by
    their string values, code unit by code unit. *)
Definition modifier_le (a b : ModifierKey) : Prop :=
  String.le (modifier_name a) (modifier_name b).

Global Instance modifier_le_dec : RelDecision modifier_le.
Proof. intros a b. unfold modifier_le. apply _. Defined.

Definition sorted (ms : list ModifierKey) : list ModifierKey :=
  merge_sort modifier_le ms.

(** Heap addresses. Shortcut definitions and [modifiers] arrays are
    objects: the program holds references to them. *)
Abbreviation loc := nat (only parsing).

(** The outcome of a rejected promise or a thrown exception. *)
Abbreviation Error := string (only parsing).

(** A callable supplied by the caller: its identity, and whether calling
    it completes ([None]) or fails, by throwing or by returning a promise
    that rejects ([Some e]). *)
Record Action := { act_id : nat; act_fails : option Error }.

Record Shortcut := {
  action : Action;
  modifiers : loc;          (* reference to an [Array<ModifierKey>] *)
  key : string;
  description : string
}.

Global Instance Shortcut_inhabited : Inhabited Shortcut :=
  populate {| action := {| act_id := 0; act_fails := None |};
              modifiers := 0; key := ""; description := "" |}.

Record ShortcutConfig := {
  silent : option bool;     (* [silent?: boolean] *)
  map : list loc            (* [Shortcut[]], an array of references *)
}.

Record KeyboardEvent := {
  ev_ctrlKey : bool;
  ev_shiftKey : bool;
  ev_metaKey : bool;
  ev_altKey : bool;
  ev_key : string
}.

(** [event[m]] for a modifier name [m]. *)
Definition event_flag (event : KeyboardEvent) (m : ModifierKey) : bool :=
  match m with
  | ctrlKey => ev_ctrlKey event
  | shiftKey => ev_shiftKey event
  | metaKey => ev_metaKey event
  | altKey => ev_altKey event
  end.

(** [handleKeyPress] is a closure over [shortcutMap] and [silent];
    [fn_id] is the identity of the function object, which is what
    [addEventListener] and [removeEventListener] compare. *)
Record Handler := {
  fn_id : nat;
  h_shortcutMap : gmap string loc;
  h_silent : option bool
}.

(** What an observer of the program sees, in order. *)
Inductive Effect :=
| ActionCalled (a : nat)
| ActionSettled (a : nat)
| ConsoleInfo (line : string)
| UnhandledRejection (e : Error).

Record World := {
  shortcuts : gmap loc Shortcut;              (* heap: definition objects *)
  arrays : gmap loc (list ModifierKey);       (* heap: modifiers arrays *)
  listeners : list Handler;                   (* document, [keydown] *)
  next_fn : nat;                              (* next function identity *)
  trace : list Effect
}.

(** ** Key construction *)

(** [`${ms.join('-')}-${k}`] *)
Definition indexKey (ms : list ModifierKey) (k : string) : string :=
  Js.join "-" (modifier_name <$> ms) +:+ "-" +:+ k.

Definition getEventMapKey (event : KeyboardEvent) : string :=
  let modifiersPressed :=
    sorted (filter (λ m, event_flag event m = true) MODIFIERS_KEYS) in
  indexKey modifiersPressed (Js.toLowerCase (ev_key event)).

(** The parameter's default [shortcutMap = {}] is never used: the hook
    always passes a table.  Every key holds a [-], so no lookup falls
    through to a property inherited from [Object.prototype]. *)
Definition getShortcut (shortcutMap : gmap string loc) (event : KeyboardEvent)
    : option loc :=
  let indexMapKey := getEventMapKey event in
  shortcutMap !! indexMapKey.

(** ** Effects: a state and exception monad over [World] *)

Inductive Completion (A : Type) :=
| Normal (a : A)
| Throw (e : Error).
Arguments Normal {A} a.
Arguments Throw {A} e.

Definition JS (A : Type) : Type := World → Completion A * World.

Global Instance JS_ret : MRet JS := λ A a w, (Normal a, w).

Global Instance JS_bind : MBind JS := λ A B k m w,
  match m w with
  | (Normal a, w') => k a w'
  | (Throw e, w') => (Throw e, w')
  end.

Definition set_arrays (f : gmap loc (list ModifierKey) → gmap loc (list ModifierKey))
    (w : World) : World :=
  {| shortcuts := shortcuts w; arrays := f (arrays w); listeners := listeners w;
     next_fn := next_fn w; trace := trace w |}.

Definition set_listeners (f : list Handler → list Handler) (w : World) : World :=
  {| shortcuts := shortcuts w; arrays := arrays w; listeners := f (listeners w);
     next_fn := next_fn w; trace := trace w |}.

Definition emit (e : Effect) (w : World) : World :=
  {| shortcuts := shortcuts w; arrays := arrays w; listeners := listeners w;
     next_fn := next_fn w; trace := trace w ++ [e] |}.

(** Reading the fields of the object behind a reference. *)
Definition deref (r : loc) : JS Shortcut := λ w, (Normal (shortcuts w !!! r), w).

(** The current elements of an array. *)
Definition elements_of (a : loc) : JS (list ModifierKey) :=
  λ w, (Normal (arrays w !!! a), w).

(** [a.sort()]: sorts the array in place and returns the same reference. *)
Definition array_sort (a : loc) : JS loc :=
  λ w, (Normal a, set_arrays (λ h, <[a := sorted (h !!! a)]> h) w).

(** [console.info(line)] *)
Definition console_info (line : string) : JS unit :=
  λ w, (Normal tt, emit (ConsoleInfo line) w).

(** [await action()]: the callable is entered; the handler resumes after
    it has settled, or fails with the action's failure. *)
Definition await_call (a : Action) : JS unit :=
  λ w, match act_fails a with
       | None => (Normal tt, emit (ActionSettled (act_id a)) (emit (ActionCalled (act_id a)) w))
       | Some e => (Throw e, emit (ActionCalled (act_id a)) w)
       end.

(** [Array.prototype.reduceRight] with an initial value: the callback sees
    the last element first. *)
Fixpoint reduceRight {A B} (f : B → A → JS B) (l : list A) (init : B) : JS B :=
  match l with
  | [] => mret init
  | x :: xs => acc ← reduceRight f xs init; f acc x
  end.

(** ** The table builder *)

Definition generateShorcutMap (map : list loc) : JS (gmap string loc) :=
  reduceRight (λ acc config,
    c ← deref config;
    let '(modifiers, key) := (modifiers c, key c) in
    ms ← array_sort modifiers;
    elts ← elements_of ms;
    let indexKey := indexKey elts key in
    mret (<[indexKey := config]> acc)) map ∅.

(** ** The keystroke handler *)

(** The template literal of the log line; an array inside a template
    literal is rendered by [Array.prototype.toString], which joins with
    a comma. *)
Definition logLine (ms : list ModifierKey) (key description : string) : string :=
  LOG_TAG +:+ " with " +:+ Js.join "," (modifier_name <$> ms)
    +:+ " executed for key " +:+ Js.dquote +:+ key +:+ Js.dquote
    +:+ ": " +:+ description.

Definition handleKeyPress (shortcutMap : gmap string loc) (silent : option bool)
    (event : KeyboardEvent) : JS unit :=
  match getShortcut shortcutMap event with
  | None => mret tt
  | Some shortcut =>
    s ← deref shortcut;
    let '(key, description, modifiers, action) :=
      (key s, description s, modifiers s, action s) in
    await_call action;;
    if Js.truthy silent then mret tt
    else
      ms ← elements_of modifiers;
      console_info (logLine ms key description)
  end.

(** ** The document's [keydown] listeners *)

(** [useCallback] on the first render: a new function object. *)
Definition useCallback (shortcutMap : gmap string loc) (silent : option bool)
    : JS Handler :=
  λ w, (Normal {| fn_id := next_fn w; h_shortcutMap := shortcutMap;
                  h_silent := silent |},
        {| shortcuts := shortcuts w; arrays := arrays w; listeners := listeners w;
           next_fn := S (next_fn w); trace := trace w |}).

(** A listener that is already registered is not added again. *)
Definition addEventListener (h : Handler) : JS unit :=
  λ w, (Normal tt,
        set_listeners (λ ls, if decide (fn_id h ∈ fn_id <$> ls) then ls
                             else ls ++ [h]) w).

Definition removeEventListener (h : Handler) : JS unit :=
  λ w, (Normal tt, set_listeners (filter (λ h', fn_id h' ≠ fn_id h)) w).

(** The document calls each listener in turn and drops the promise it
    returns: a rejection is reported as unhandled and the next listener
    runs. *)
Fixpoint invoke_listeners (ls : list Handler) (event : KeyboardEvent)
    (w : World) : World :=
  match ls with
  | [] => w
  | h :: ls' =>
    match handleKeyPress (h_shortcutMap h) (h_silent h) event w with
    | (Normal _, w') => invoke_listeners ls' event w'
    | (Throw e, w') => invoke_listeners ls' event (emit (UnhandledRejection e) w')
    end
  end.

Definition keydown (event : KeyboardEvent) (w : World) : World :=
  invoke_listeners (listeners w) event w.

Definition keydowns (events : list KeyboardEvent) (w : World) : World :=
  foldl (λ w event, keydown event w) w events.

(** ** The hook *)

(** Mounting a component that calls [useShortcuts]: [useMemo] builds the
    table, [useCallback] creates the handler and the effect registers it.
    The result is the effect's cleanup, which React runs on unmount. *)
Definition useShortcuts (cfg : ShortcutConfig) : JS (JS unit) :=
  let '(map, silent) := (map cfg, silent cfg) in
  shortcutMap ← generateShorcutMap map;
  handleKeyPress ← useCallback shortcutMap silent;
  addEventListener handleKeyPress;;
  mret (removeEventListener handleKeyPress).

(** ** The configuration of the repository's test suite *)

Module TestSuite.

Definition action1 : Action := {| act_id := 1; act_fails := None |}.
Definition action2 : Action := {| act_id := 2; act_fails := None |}.
Definition action3 : Action := {| act_id := 3; act_fails := None |}.

(** Three definition objects at addresses 1, 2, 3, each with its own
    modifiers array at 11, 12, 13. *)
Definition world0 : World :=
  {| shortcuts :=
       {[ 1 := {| action := action1; modifiers := 11; key := "o";
                  description := "Sample action 1" |};
          2 := {| action := action2; modifiers := 12; key := "i";
                  description := "Sample action 2" |};
          3 := {| action := action3; modifiers := 13; key := "o";
                  description := "Sample action 3" |} ]};
     arrays := {[ 11 := [shiftKey; ctrlKey];
                  12 := [altKey; ctrlKey];
                  13 := [shiftKey; ctrlKey] ]};
     listeners := [];
     next_fn := 0;
     trace := [] |}.

Definition SHORTCUT_CONFIG : ShortcutConfig :=
  {| silent := Some true; map := [1; 2; 3] |}.

Definition ctrl_shift_o : KeyboardEvent :=
  {| ev_ctrlKey := true; ev_shiftKey := true; ev_metaKey := false;
     ev_altKey := false; ev_key := "o" |}.

Definition ctrl_alt_i : KeyboardEvent :=
  {| ev_ctrlKey := true; ev_shiftKey := false; ev_metaKey := false;
     ev_altKey := true; ev_key := "i" |}.

Definition ctrl_alt_p : KeyboardEvent :=
  {| ev_ctrlKey := true; ev_shiftKey := false; ev_metaKey := false;
     ev_altKey := true; ev_key := "p" |}.

End TestSuite.

(** ** Further configurations *)

Module Examples.

Definition one_definition (c : Shortcut) (ms : list ModifierKey) : World :=
  {| shortcuts := {[ 1 := c ]}; arrays := {[ modifiers c := ms ]};
     listeners := []; next_fn := 0; trace := [] |}.

Definition noop : Action := {| act_id := 7; act_fails := None |}.
Definition failing : Action := {| act_id := 8; act_fails := Some "boom" |}.

(** [{ modifiers: ['ctrlKey'], key: 'O' }] *)
Definition upper_world : World :=
  one_definition {| action := noop; modifiers := 11; key := "O";
                    description := "open" |} [ctrlKey].

(** [{ modifiers: ['ctrlKey', 'ctrlKey'], key: 'o' }] *)
Definition repeated_world : World :=
  one_definition {| action := noop; modifiers := 11; key := "o";
                    description := "open" |} [ctrlKey; ctrlKey].

(** A definition whose action fails. *)
Definition failing_world : World :=
  one_definition {| action := failing; modifiers := 11; key := "o";
                    description := "open" |} [ctrlKey].

Definition ctrl (k : string) : KeyboardEvent :=
  {| ev_ctrlKey := true; ev_shiftKey := false; ev_metaKey := false;
     ev_altKey := false; ev_key := k |}.

End Examples.

(** ** Pure readings of the table builder *)

(** The key under which [generateShorcutMap] files the definition at [r]:
    its modifiers, sorted, and its key as written. *)
Definition tableKey (w : World) (r : loc) : string :=
  let c := shortcuts w !!! r in
  indexKey (sorted (arrays w !!! modifiers c)) (key c).

(** The arrays after [a.sort()] has run on each address of [as_],
    last address first. *)
Fixpoint sort_arrays (as_ : list loc) (h : gmap loc (list ModifierKey))
    : gmap loc (list ModifierKey) :=
  match as_ with
  | [] => h
  | a :: as' => let h' := sort_arrays as' h in <[a := sorted (h' !!! a)]> h'
  end.

(** The table as a right fold of inserts. *)
Definition table_of (w : World) (map : list loc) : gmap string loc :=
  foldr (λ r acc, <[tableKey w r := r]> acc) ∅ map.

(** What a caller reads from the definition at [r]: its fields, with the
    elements of its modifiers array. *)
Definition definition_at (w : World) (r : loc)
    : Action * list ModifierKey * string * string :=
  let c := shortcuts w !!! r in
  (action c, arrays w !!! modifiers c, key c, description c).

(** A key with at least one modifier, read segment by segment. *)
Fixpoint segments (ms : list ModifierKey) (k : string) : string :=
  match ms with
  | [] => k
  | m :: ms' => modifier_name m +:+ "-" +:+ segments ms' k
  end.

(** ** Readings of the world *)

(** The actions called along a trace, in order. *)
Definition calls (t : list Effect) : list nat :=
  omap (λ e, match e with ActionCalled a => Some a | _ => None end) t.

(** The console lines along a trace, in order. *)
Definition logs (t : list Effect) : list string :=
  omap (λ e, match e with ConsoleInfo line => Some line | _ => None end) t.

(** The action that a table built from [map] runs on [event]: that of the
    earliest definition of the list filed under the event's key. *)
Definition first_match (w : World) (map : list loc) (event : KeyboardEvent)
    : list nat :=
  match list_find (λ r, tableKey w r = getEventMapKey event) map with
  | Some (_, r) => [act_id (action (shortcuts w !!! r))]
  | None => []
  end.

(** Function identities are handed out in increasing order: those of the
    registered listeners are below the next one. *)
Definition fresh_ids (w : World) : Prop :=
  Forall (λ h, fn_id h < next_fn w) (listeners w).

(** * Properties *)

(** ** The suite's expectations, replayed *)

Example getEventMapKey_test :
  getEventMapKey TestSuite.ctrl_shift_o = "ctrlKey-shiftKey-o".
Proof. vm_compute. reflexivity. Qed.

Example generateShorcutMap_test :
  (generateShorcutMap (map TestSuite.SHORTCUT_CONFIG) TestSuite.world0).1
  = Normal {[ "ctrlKey-shiftKey-o" := 1; "altKey-ctrlKey-i" := 2 ]}.
Proof. vm_compute. reflexivity. Qed.

Example trigger_action_1_only :
  trace (keydown TestSuite.ctrl_shift_o
           (useShortcuts TestSuite.SHORTCUT_CONFIG TestSuite.world0).2)
  = [ActionCalled 1; ActionSettled 1].
Proof. vm_compute. reflexivity. Qed.

Example trigger_no_action :
  trace (keydown TestSuite.ctrl_alt_p
           (useShortcuts TestSuite.SHORTCUT_CONFIG TestSuite.world0).2)
  = [].
Proof. vm_compute. reflexivity. Qed.

(** ** Sorting *)

Global Instance modifier_le_trans : Transitive modifier_le.
Proof. intros x y z. unfold modifier_le. apply transitivity. Qed.

Global Instance modifier_le_total : Total modifier_le.
Proof. intros x y. unfold modifier_le. apply (total String.le). Qed.

Lemma modifier_name_inj : Inj (=) (=) modifier_name.
Proof. intros [] [] H; first [reflexivity | discriminate H]. Qed.

Global Instance modifier_le_antisymm : AntiSymm (=) modifier_le.
Proof.
  intros x y Hxy Hyx. apply modifier_name_inj.
  exact (anti_symm String.le _ _ Hxy Hyx).
Qed.

Lemma sorted_Permutation ms : sorted ms ≡ₚ ms.
Proof. apply merge_sort_Permutation. Qed.

Lemma sorted_Sorted ms : Sorted modifier_le (sorted ms).
Proof. apply (Sorted_merge_sort modifier_le). Qed.

Lemma sorted_perm_eq ms1 ms2 : ms1 ≡ₚ ms2 → sorted ms1 = sorted ms2.
Proof.
  intros Hp. apply (Sorted_unique modifier_le); try apply sorted_Sorted.
  by rewrite !sorted_Permutation.
Qed.

Lemma sorted_idem ms : sorted (sorted ms) = sorted ms.
Proof. apply sorted_perm_eq, sorted_Permutation. Qed.

Lemma sorted_NoDup ms : NoDup (sorted ms) ↔ NoDup ms.
Proof. by rewrite sorted_Permutation. Qed.

(** ** The heap after the table is built *)

Lemma sort_arrays_lookup as_ h a :
  sort_arrays as_ h !!! a =
  if decide (a ∈ as_) then sorted (h !!! a) else h !!! a.
Proof.
  induction as_ as [|b as' IH]; cbn [sort_arrays].
  - destruct (decide (a ∈ [])) as [Hin|]; [by apply elem_of_nil in Hin | done].
  - destruct (decide (b = a)) as [->|Hne].
    + rewrite lookup_total_insert_eq, IH.
      destruct (decide (a ∈ a :: as')) as [_|Hn]; [|set_solver].
      destruct (decide (a ∈ as')); [apply sorted_idem | done].
    + rewrite lookup_total_insert_ne, IH by done.
      destruct (decide (a ∈ as')) as [Hi|Hi], (decide (a ∈ b :: as')) as [Hj|Hj];
        try done.
      * destruct Hj. by apply list_elem_of_further.
      * apply elem_of_cons in Hj as [->|Hj]; [by destruct Hne | by destruct Hi].
Qed.

Lemma sort_arrays_sorted as_ h a :
  sorted (sort_arrays as_ h !!! a) = sorted (h !!! a).
Proof. rewrite sort_arrays_lookup. case_decide; [apply sorted_idem | done]. Qed.

(** Running monadic code: unfold the primitives and compute. *)
Ltac js_unfold :=
  unfold mbind, JS_bind, mret, JS_ret, deref, array_sort, elements_of,
    console_info, await_call, set_arrays, emit.

(** One run of the builder, in closed form: it returns normally with
    [table_of], and the only part of the world it writes is the arrays. *)
Lemma generateShorcutMap_run map w :
  generateShorcutMap map w =
  (Normal (table_of w map),
   set_arrays (sort_arrays ((λ r, modifiers (shortcuts w !!! r)) <$> map)) w).
Proof.
  unfold generateShorcutMap.
  induction map as [|r rs IH]; cbn [reduceRight].
  - unfold mret, JS_ret, set_arrays. by destruct w.
  - unfold mbind at 1, JS_bind at 1. rewrite IH.
    js_unfold. cbn. unfold tableKey.
    by rewrite lookup_total_insert_eq, sort_arrays_sorted.
Qed.

(** ** The table as a function of the list *)

(** An entry of the table is the first definition of the list, in list
    order, that is filed under that key. *)
Lemma table_of_cons w r rs :
  table_of w (r :: rs) = <[tableKey w r := r]> (table_of w rs).
Proof. reflexivity. Qed.

Lemma table_of_lookup w map k :
  table_of w map !! k = snd <$> list_find (λ r, tableKey w r = k) map.
Proof.
  induction map as [|r rs IH].
  - apply lookup_empty.
  - rewrite table_of_cons. cbn [list_find].
    destruct (decide (tableKey w r = k)) as [->|Hne].
    + by rewrite lookup_insert_eq.
    + rewrite lookup_insert_ne by done. rewrite IH.
      by destruct (list_find _ rs) as [[]|].
Qed.

Lemma table_of_Some w map k r :
  table_of w map !! k = Some r → r ∈ map ∧ tableKey w r = k.
Proof.
  rewrite table_of_lookup. intros [[i r'] [Hf ->]]%fmap_Some.
  apply list_find_Some in Hf as (Hl & Hk & _).
  split; [by eapply list_elem_of_lookup_2 | done].
Qed.

Lemma table_of_first w map i r :
  map !! i = Some r →
  (∀ j r', j < i → map !! j = Some r' → tableKey w r' ≠ tableKey w r) →
  table_of w map !! tableKey w r = Some r.
Proof.
  intros Hi Hfirst. rewrite table_of_lookup.
  rewrite (proj2 (list_find_Some _ map i r)); [done|].
  split_and!; [done..|]. intros j y Hj Hlt. by eapply Hfirst.
Qed.

Lemma table_of_dom w map :
  dom (table_of w map) = list_to_set (tableKey w <$> map).
Proof.
  induction map as [|r rs IH].
  - apply dom_empty_L.
  - rewrite table_of_cons, dom_insert_L, IH. reflexivity.
Qed.

Lemma size_list_to_set_remove_dups (l : list string) :
  size (list_to_set (C := gset string) l) = length (remove_dups l).
Proof.
  rewrite <-(size_list_to_set (C := gset string)) by apply NoDup_remove_dups.
  f_equal. apply set_eq. intros x.
  by rewrite !elem_of_list_to_set, elem_of_remove_dups.
Qed.

(** The builder writes nothing but array contents, and those only
    through [sort]: keys are the same before and after. *)
Lemma tableKey_after w map r :
  tableKey (generateShorcutMap map w).2 r = tableKey w r.
Proof.
  rewrite generateShorcutMap_run. unfold tableKey; cbn.
  by rewrite sort_arrays_sorted.
Qed.

(** ** Collisions: the earliest definition is the one stored *)

(** C1: when a later definition of the list has the same table key as an
    earlier one, [generateShorcutMap] returns normally and logs nothing,
    the table holds the earliest definition with that key under it, and a
    later colliding definition (another object) is under no key of the
    table. *)
Theorem first_occurrence_wins w map i j ri rj :
  map !! i = Some ri →
  map !! j = Some rj →
  i < j →
  tableKey w rj = tableKey w ri →
  (∀ i' r', i' < i → map !! i' = Some r' → tableKey w r' ≠ tableKey w ri) →
  ∃ table w',
    generateShorcutMap map w = (Normal table, w') ∧
    trace w' = trace w ∧
    table !! tableKey w ri = Some ri ∧
    (rj ≠ ri → ∀ k, table !! k ≠ Some rj).
Proof.
  intros Hi Hj Hlt Hkey Hfirst.
  eexists _, _. split; [apply generateShorcutMap_run|].
  split; [reflexivity|]. split.
  - by eapply table_of_first.
  - intros Hne k Hk.
    destruct (table_of_Some _ _ _ _ Hk) as [_ <-].
    rewrite Hkey, (table_of_first w map i ri Hi Hfirst) in Hk. congruence.
Qed.

Lemma first_occurrence_wins_witness :
  ∃ table w',
    generateShorcutMap [1; 2; 3] TestSuite.world0 = (Normal table, w') ∧
    trace w' = trace TestSuite.world0 ∧
    table !! tableKey TestSuite.world0 1 = Some 1 ∧
    (3 ≠ 1 → ∀ k, table !! k ≠ Some 3).
Proof.
  apply (first_occurrence_wins TestSuite.world0 [1; 2; 3] 0 2 1 3).
  - reflexivity.
  - reflexivity.
  - lia.
  - vm_compute. reflexivity.
  - intros i' r' Hlt. lia.
Defined.

(** ** Size and keys of the table *)

(** C8: the table has as many entries as there are distinct table keys
    among the definitions of the list, and its keys are exactly the table
    keys of those definitions: none comes from elsewhere. *)
Theorem table_size_distinct_keys w map :
  ∃ table w',
    generateShorcutMap map w = (Normal table, w') ∧
    size table = length (remove_dups (tableKey w <$> map)) ∧
    dom table = list_to_set (tableKey w <$> map).
Proof.
  eexists _, _. split; [apply generateShorcutMap_run|].
  split; [|apply table_of_dom].
  rewrite <-size_dom, table_of_dom. apply size_list_to_set_remove_dups.
Qed.

(** ** What the builder does to the caller's definitions *)

(** The test suite's first definition is declared with
    [['shiftKey', 'ctrlKey']]; after the table is built the caller reads
    [['ctrlKey', 'shiftKey']] from the same definition. *)
Lemma build_reorders_modifiers :
  definition_at (generateShorcutMap (map TestSuite.SHORTCUT_CONFIG)
                   TestSuite.world0).2 1
  ≠ definition_at TestSuite.world0 1.
Proof. vm_compute. discriminate. Qed.

(** C9, amended: the builder returns normally; it writes no field of any
    definition object, so action, key, description and the identity of
    the modifiers array are as before; the elements of the modifiers
    array of every definition of the list are sorted in place, and every
    other array is untouched; every entry of the table is a reference
    taken from the list. *)
Theorem build_sorts_modifiers_in_place w map :
  ∃ table w',
    generateShorcutMap map w = (Normal table, w') ∧
    shortcuts w' = shortcuts w ∧
    Forall (λ r, let c := shortcuts w !!! r in
                 definition_at w' r =
                 (action c, sorted (arrays w !!! modifiers c), key c,
                  description c)) map ∧
    (∀ a, arrays w' !!! a =
          if decide (a ∈ (λ r, modifiers (shortcuts w !!! r)) <$> map)
          then sorted (arrays w !!! a) else arrays w !!! a) ∧
    map_Forall (λ _ r, r ∈ map) table.
Proof.
  eexists _, _. split; [apply generateShorcutMap_run|].
  split; [reflexivity|]. split; [|split].
  - apply Forall_forall. intros r Hr. unfold definition_at; cbn.
    rewrite sort_arrays_lookup, decide_True; [done|].
    apply list_elem_of_fmap. by exists r.
  - intros a. cbn. apply sort_arrays_lookup.
  - intros k r Hk. by apply table_of_Some in Hk as [? _].
Qed.

(** ** Strings *)

Lemma String_app_cons c s t : String c s +:+ t = String c (s +:+ t).
Proof. reflexivity. Qed.

Lemma String_app_assoc s1 s2 s3 : (s1 +:+ s2) +:+ s3 = s1 +:+ (s2 +:+ s3).
Proof.
  induction s1 as [|c s1 IH]; [reflexivity|].
  rewrite !String_app_cons. by rewrite IH.
Qed.

Lemma indexKey_nil k : indexKey [] k = "-" +:+ k.
Proof. reflexivity. Qed.

Lemma indexKey_cons m ms k : indexKey (m :: ms) k = segments (m :: ms) k.
Proof.
  unfold indexKey. revert m. induction ms as [|m' ms IH]; intros m.
  - reflexivity.
  - change (Js.join "-" (modifier_name <$> m :: m' :: ms))
      with (modifier_name m +:+ "-" +:+ Js.join "-" (modifier_name <$> m' :: ms)).
    change (segments (m :: m' :: ms) k)
      with (modifier_name m +:+ "-" +:+ segments (m' :: ms) k).
    rewrite <-IH. by rewrite !String_app_assoc.
Qed.

Lemma lower_ascii_not_K c : Js.lower_ascii c ≠ "K"%char.
Proof. destruct c as [[] [] [] [] [] [] [] []]; vm_compute; discriminate. Qed.

(** No lowercased string starts with a modifier name: each name has an
    upper case [K]. *)
Lemma modifier_name_not_lower m rest s :
  modifier_name m +:+ rest ≠ Js.toLowerCase s.
Proof.
  destruct m; cbn [modifier_name]; rewrite !String_app_cons;
    repeat (destruct s as [|? s]; cbn [Js.toLowerCase]; [discriminate|]);
    intros H; injection H; intros; by eapply lower_ascii_not_K.
Qed.

Lemma modifier_segment_inj m1 m2 s1 s2 :
  modifier_name m1 +:+ "-" +:+ s1 = modifier_name m2 +:+ "-" +:+ s2 →
  m1 = m2 ∧ s1 = s2.
Proof.
  destruct m1, m2; cbn [modifier_name]; rewrite !String_app_cons;
    intros H; first [discriminate H | by injection H].
Qed.

(** If a table key with modifiers [ms] is also an event key, [ms] is an
    initial part of the event's modifiers. *)
Lemma segments_prefix ms es k s :
  segments ms k = segments es (Js.toLowerCase s) → ms `prefix_of` es.
Proof.
  revert es. induction ms as [|m ms IH]; intros es Heq.
  - apply prefix_nil.
  - destruct es as [|e es]; cbn [segments] in Heq.
    + by apply modifier_name_not_lower in Heq.
    + apply modifier_segment_inj in Heq as [-> Heq].
      apply prefix_cons. by apply IH.
Qed.

Lemma pressed_NoDup event :
  NoDup (filter (λ m, event_flag event m = true) MODIFIERS_KEYS).
Proof.
  apply NoDup_filter. apply (bool_decide_unpack _). vm_compute. exact I.
Qed.

(** A modifier list with a repeated element yields a key that no event
    yields. *)
Lemma repeated_modifier_key_unreachable ms k event :
  ¬ NoDup ms → indexKey (sorted ms) k ≠ getEventMapKey event.
Proof.
  intros Hdup Heq. apply Hdup, sorted_NoDup.
  unfold getEventMapKey in Heq. cbv zeta in Heq.
  pose proof (proj2 (sorted_NoDup _) (pressed_NoDup event)) as Hnd.
  destruct (sorted ms) as [|m ms']; [apply NoDup_nil_2|].
  revert Heq Hnd.
  generalize (sorted (filter (λ m, event_flag event m = true) MODIFIERS_KEYS)).
  intros [|e es] Heq Hnd.
  - rewrite indexKey_cons, indexKey_nil in Heq. cbn [segments] in Heq.
    destruct m; discriminate Heq.
  - rewrite !indexKey_cons in Heq. apply segments_prefix in Heq as [tl Htl].
    rewrite Htl in Hnd. by apply NoDup_app in Hnd as [? _].
Qed.

(** ** The handler, case by case *)

Lemma handleKeyPress_unmatched table silent event w :
  getShortcut table event = None →
  handleKeyPress table silent event w = (Normal tt, w).
Proof. intros Hnone. unfold handleKeyPress. by rewrite Hnone. Qed.

Lemma handleKeyPress_matched table silent event w r :
  getShortcut table event = Some r →
  let c := shortcuts w !!! r in
  let a := act_id (action c) in
  handleKeyPress table silent event w =
  match act_fails (action c) with
  | Some e => (Throw e, emit (ActionCalled a) w)
  | None =>
    let w' := emit (ActionSettled a) (emit (ActionCalled a) w) in
    if Js.truthy silent then (Normal tt, w')
    else (Normal tt,
          emit (ConsoleInfo (logLine (arrays w !!! modifiers c) (key c)
                               (description c))) w')
  end.
Proof.
  intros Hsome. unfold handleKeyPress. rewrite Hsome.
  js_unfold. cbn. destruct (act_fails _); [done|].
  by destruct (Js.truthy silent).
Qed.

(** The handler touches neither the listeners nor the heap. *)
Lemma handleKeyPress_listeners table silent event w :
  listeners (handleKeyPress table silent event w).2 = listeners w.
Proof.
  destruct (getShortcut table event) as [r|] eqn:Hr.
  - rewrite (handleKeyPress_matched _ _ _ _ r Hr). cbv zeta.
    destruct (act_fails _); [done|]. by destruct (Js.truthy silent).
  - by rewrite handleKeyPress_unmatched.
Qed.

Lemma invoke_listeners_listeners ls event w :
  listeners (invoke_listeners ls event w) = listeners w.
Proof.
  revert w. induction ls as [|h ls IH]; intros w; [done|]. cbn.
  pose proof (handleKeyPress_listeners (h_shortcutMap h) (h_silent h) event w) as Hl.
  destruct (handleKeyPress _ _ _ w) as [[[]|e] w']; by rewrite IH.
Qed.

Lemma keydowns_listeners events w :
  listeners (keydowns events w) = listeners w.
Proof.
  revert w. induction events as [|event events IH]; intros w; [done|].
  cbn. unfold keydowns in IH. rewrite IH. apply invoke_listeners_listeners.
Qed.

Lemma keydowns_no_listener events w :
  listeners w = [] → keydowns events w = w.
Proof.
  revert w. induction events as [|event events IH]; intros w Hw; [done|].
  cbn. unfold keydown. rewrite Hw. cbn. by apply IH.
Qed.

(** ** Matched keystrokes *)

(** C4: for a keystroke that matches a definition whose action completes,
    the action is called and settles; with [silent] true nothing is
    logged; with [silent] false or omitted exactly one line is logged,
    after the action has settled, and it reads
    [<tag> with <modifiers> executed for key "<key>": <description>]. *)
Theorem matched_keystroke_log table silent event w r :
  getShortcut table event = Some r →
  act_fails (action (shortcuts w !!! r)) = None →
  let c := shortcuts w !!! r in
  let a := act_id (action c) in
  let line :=
    LOG_TAG +:+ " with " +:+ Js.join "," (modifier_name <$> arrays w !!! modifiers c)
      +:+ " executed for key " +:+ Js.dquote +:+ key c +:+ Js.dquote
      +:+ ": " +:+ description c in
  ∃ w',
    handleKeyPress table silent event w = (Normal tt, w') ∧
    (silent = Some true →
       trace w' = trace w ++ [ActionCalled a; ActionSettled a]) ∧
    (silent = Some false ∨ silent = None →
       trace w' = trace w ++ [ActionCalled a; ActionSettled a; ConsoleInfo line]).
Proof.
  intros Hr Hok c a line. subst c a line.
  rewrite (handleKeyPress_matched _ _ _ _ r Hr). cbv zeta. rewrite Hok.
  destruct silent as [[]|]; cbn; eexists; (split; [reflexivity|]); cbn;
    rewrite <-?app_assoc; split; intros H; first [done | by destruct H].
Qed.

Lemma matched_keystroke_log_witness :
  ∃ w',
    handleKeyPress (table_of TestSuite.world0 [1; 2; 3]) None
      TestSuite.ctrl_shift_o
      (generateShorcutMap [1; 2; 3] TestSuite.world0).2 = (Normal tt, w') ∧
    trace w' =
      [ActionCalled 1; ActionSettled 1;
       ConsoleInfo ("#hooks #useShortcuts with ctrlKey,shiftKey executed for key "
                    +:+ Js.dquote +:+ "o" +:+ Js.dquote +:+ ": Sample action 1")].
Proof.
  destruct (matched_keystroke_log (table_of TestSuite.world0 [1; 2; 3]) None
              TestSuite.ctrl_shift_o
              (generateShorcutMap [1; 2; 3] TestSuite.world0).2 1)
    as (w' & Hrun & _ & Hlog).
  - vm_compute. reflexivity.
  - vm_compute. reflexivity.
  - exists w'. split; [exact Hrun|]. rewrite Hlog by (right; reflexivity).
    vm_compute. reflexivity.
Defined.

(** ** Unmatched keystrokes *)

(** C6: a keystroke whose key is not in the table returns normally and
    leaves the world as it was: no action, no log line, no error.  The
    empty list of definitions gives the empty table, in which no keystroke
    is matched. *)
Theorem unmatched_keystroke_no_effect table silent event w :
  getShortcut table event = None →
  handleKeyPress table silent event w = (Normal tt, w) ∧
  generateShorcutMap [] w = (Normal ∅, w) ∧
  handleKeyPress ∅ silent event w = (Normal tt, w).
Proof.
  intros Hnone. split; [by apply handleKeyPress_unmatched|]. split.
  - rewrite generateShorcutMap_run. cbn. by destruct w.
  - apply handleKeyPress_unmatched. apply lookup_empty.
Qed.

Lemma unmatched_keystroke_no_effect_witness :
  let table := table_of TestSuite.world0 [1; 2; 3] in
  handleKeyPress table None TestSuite.ctrl_alt_p TestSuite.world0
    = (Normal tt, TestSuite.world0) ∧
  generateShorcutMap [] TestSuite.world0 = (Normal ∅, TestSuite.world0) ∧
  handleKeyPress ∅ None TestSuite.ctrl_alt_p TestSuite.world0
    = (Normal tt, TestSuite.world0).
Proof.
  apply (unmatched_keystroke_no_effect (table_of TestSuite.world0 [1; 2; 3])
           None TestSuite.ctrl_alt_p TestSuite.world0).
  vm_compute. reflexivity.
Defined.

(** ** Failing actions *)

(** C7: when the matched definition's action fails, the handler fails
    with the same failure; the action has been called once and nothing
    has been logged. *)
Theorem action_failure_propagates table silent event w r e :
  getShortcut table event = Some r →
  act_fails (action (shortcuts w !!! r)) = Some e →
  ∃ w',
    handleKeyPress table silent event w = (Throw e, w') ∧
    trace w' = trace w ++ [ActionCalled (act_id (action (shortcuts w !!! r)))].
Proof.
  intros Hr Hfail. rewrite (handleKeyPress_matched _ _ _ _ r Hr). cbv zeta.
  rewrite Hfail. by eexists.
Qed.

Lemma action_failure_propagates_witness :
  ∃ w',
    handleKeyPress (table_of Examples.failing_world [1]) None
      (Examples.ctrl "o") Examples.failing_world = (Throw "boom", w') ∧
    trace w' = trace Examples.failing_world ++
               [ActionCalled (act_id (action (shortcuts Examples.failing_world !!! 1)))].
Proof.
  apply (action_failure_propagates (table_of Examples.failing_world [1]) None
           (Examples.ctrl "o") Examples.failing_world 1 "boom").
  - vm_compute. reflexivity.
  - vm_compute. reflexivity.
Defined.

(** ** Unbinding *)

(** Whatever else is registered on the document, after the cleanup no
    listener has the identity of the handler that the hook created. *)
Lemma unbind_removes_handler cfg w before :
  ∃ unbind w1 w3,
    useShortcuts cfg w = (Normal unbind, w1) ∧
    unbind (keydowns before w1) = (Normal tt, w3) ∧
    Forall (λ h, fn_id h ≠ next_fn w) (listeners w3).
Proof.
  unfold useShortcuts.
  unfold mbind at 1, JS_bind at 1. rewrite generateShorcutMap_run.
  unfold mbind, JS_bind, useCallback, addEventListener, mret, JS_ret,
    set_arrays, set_listeners. cbn.
  eexists _, _, _. split; [reflexivity|].
  unfold removeEventListener, set_listeners. cbn.
  split; [reflexivity|]. cbn.
  apply Forall_forall. intros h Hh. by apply list_elem_of_filter in Hh as [? _].
Qed.

(** C5: mounting registers one handler; whatever keystrokes arrive while
    it is bound, after the cleanup has run the handler is no longer
    registered, and every later keystroke leaves the world as it is: no
    action is called and nothing is logged.  The hook is the document's
    only client. *)
Theorem no_keystroke_after_unbind cfg w before after :
  listeners w = [] →
  ∃ unbind w1 w3,
    useShortcuts cfg w = (Normal unbind, w1) ∧
    unbind (keydowns before w1) = (Normal tt, w3) ∧
    listeners w3 = [] ∧
    keydowns after w3 = w3.
Proof.
  intros Hnil. unfold useShortcuts.
  unfold mbind at 1, JS_bind at 1. rewrite generateShorcutMap_run.
  unfold mbind, JS_bind, useCallback, addEventListener, mret, JS_ret,
    set_arrays, set_listeners. cbn. rewrite Hnil. cbn.
  destruct (decide (next_fn w ∈ [])) as [Hin|_]; [by apply elem_of_nil in Hin|].
  eexists _, _, _. split; [reflexivity|].
  unfold removeEventListener, set_listeners. cbn.
  split; [reflexivity|]. cbn. rewrite keydowns_listeners. cbn.
  rewrite decide_False by (intros H; by apply H).
  split; [reflexivity|].
  by apply keydowns_no_listener.
Qed.

Lemma no_keystroke_after_unbind_witness :
  ∃ unbind w1 w3,
    useShortcuts TestSuite.SHORTCUT_CONFIG TestSuite.world0 = (Normal unbind, w1) ∧
    unbind (keydowns [TestSuite.ctrl_alt_i] w1) = (Normal tt, w3) ∧
    listeners w3 = [] ∧
    keydowns [TestSuite.ctrl_shift_o] w3 = w3.
Proof.
  apply (no_keystroke_after_unbind TestSuite.SHORTCUT_CONFIG TestSuite.world0
           [TestSuite.ctrl_alt_i] [TestSuite.ctrl_shift_o]).
  reflexivity.
Defined.

(** ** Order of the modifiers *)

(** The event's modifiers are picked from [MODIFIERS_KEYS] and sorted:
    any list holding the same modifiers gives the event's key. *)
Lemma getEventMapKey_any_order event ms :
  ms ≡ₚ filter (λ m, event_flag event m = true) MODIFIERS_KEYS →
  indexKey (sorted ms) (Js.toLowerCase (ev_key event)) = getEventMapKey event.
Proof. intros Hp. unfold getEventMapKey. by rewrite (sorted_perm_eq _ _ Hp). Qed.

(** C3: two definitions with the same key whose modifiers arrays hold
    the same modifiers in different orders are filed under the same table
    key by [generateShorcutMap]; and on the event side every list holding
    the event's active modifiers, whatever its order, sorts and joins to
    the key that [getEventMapKey] returns. *)
Theorem canonical_key_order_independent w r1 r2 event ms :
  key (shortcuts w !!! r1) = key (shortcuts w !!! r2) →
  arrays w !!! modifiers (shortcuts w !!! r1)
    ≡ₚ arrays w !!! modifiers (shortcuts w !!! r2) →
  ms ≡ₚ filter (λ m, event_flag event m = true) MODIFIERS_KEYS →
  (∃ k, (generateShorcutMap [r1] w).1 = Normal (<[k := r1]> ∅) ∧
        (generateShorcutMap [r2] w).1 = Normal (<[k := r2]> ∅)) ∧
  indexKey (sorted ms) (Js.toLowerCase (ev_key event)) = getEventMapKey event.
Proof.
  intros Hkey Hperm Hms. split; [|by apply getEventMapKey_any_order].
  exists (tableKey w r1). rewrite !generateShorcutMap_run. cbn.
  split; [reflexivity|]. do 2 f_equal.
  unfold tableKey. by rewrite Hkey, (sorted_perm_eq _ _ Hperm).
Qed.

Lemma canonical_key_order_independent_witness :
  (∃ k, (generateShorcutMap [1] TestSuite.world0).1 = Normal (<[k := 1]> ∅) ∧
        (generateShorcutMap [3] TestSuite.world0).1 = Normal (<[k := 3]> ∅)) ∧
  indexKey (sorted [shiftKey; ctrlKey])
    (Js.toLowerCase (ev_key TestSuite.ctrl_shift_o))
  = getEventMapKey TestSuite.ctrl_shift_o.
Proof.
  apply (canonical_key_order_independent TestSuite.world0 1 3
           TestSuite.ctrl_shift_o [shiftKey; ctrlKey]).
  - reflexivity.
  - vm_compute. reflexivity.
  - vm_compute. apply Permutation_swap.
Defined.

(** ** Letter case of the key *)


(** C2, at the failing input: the definition
    [{ modifiers: ['ctrlKey'], key: 'O' }] is filed under [ctrlKey-O],
    the keystrokes Ctrl+O and Ctrl+o both look up [ctrlKey-o], and with
    the hook mounted neither calls the definition's action. *)
Theorem uppercase_key_never_matches :
  ∃ unbind w1,
    useShortcuts {| silent := None; map := [1] |} Examples.upper_world
      = (Normal unbind, w1) ∧
    tableKey Examples.upper_world 1 = "ctrlKey-O" ∧
    getEventMapKey (Examples.ctrl "O") = "ctrlKey-o" ∧
    getEventMapKey (Examples.ctrl "o") = "ctrlKey-o" ∧
    trace (keydowns [Examples.ctrl "O"; Examples.ctrl "o"] w1) = [].
Proof. eexists _, _. split; [reflexivity|]. vm_compute. done. Qed.

(** ** Repeated modifiers *)

(** C10: a definition whose modifiers array holds a modifier more than
    once is filed under a key that [getEventMapKey] returns for no event;
    whatever list it is part of, no keystroke looks it up, and the
    handler behaves as if its entry were not in the table. *)
Theorem repeated_modifier_never_matches w map r :
  ¬ NoDup (arrays w !!! modifiers (shortcuts w !!! r)) →
  (∀ event, getEventMapKey event ≠ tableKey w r) ∧
  ∃ table w',
    generateShorcutMap map w = (Normal table, w') ∧
    ∀ event,
      getShortcut table event ≠ Some r ∧
      ∀ silent w0,
        handleKeyPress table silent event w0 =
        handleKeyPress (delete (tableKey w r) table) silent event w0.
Proof.
  intros Hdup.
  assert (∀ event, getEventMapKey event ≠ tableKey w r) as Hkey.
  { intros event Heq. symmetry in Heq. revert Heq.
    by apply repeated_modifier_key_unreachable. }
  split; [done|].
  eexists _, _. split; [apply generateShorcutMap_run|].
  intros event. split.
  - unfold getShortcut. intros [_ Hk]%table_of_Some. by apply (Hkey event).
  - intros silent w0. unfold handleKeyPress, getShortcut.
    by rewrite lookup_delete_ne by (intros Heq; by apply (Hkey event)).
Qed.

Lemma repeated_modifier_never_matches_witness :
  (∀ event, getEventMapKey event ≠ tableKey Examples.repeated_world 1) ∧
  ∃ table w',
    generateShorcutMap [1] Examples.repeated_world = (Normal table, w') ∧
    ∀ event,
      getShortcut table event ≠ Some 1 ∧
      ∀ silent w0,
        handleKeyPress table silent event w0 =
        handleKeyPress (delete (tableKey Examples.repeated_world 1) table)
          silent event w0.
Proof.
  apply (repeated_modifier_never_matches Examples.repeated_world [1] 1).
  apply (bool_decide_unpack _). vm_compute. exact I.
Defined.

(** * Further properties *)

(** ** Which keys coincide *)

Lemma segments_key_inj ms k1 k2 : segments ms k1 = segments ms k2 → k1 = k2.
Proof.
  induction ms as [|m ms IH]; cbn [segments]; [done|].
  intros Heq. by apply modifier_segment_inj in Heq as [_ Heq%IH].
Qed.

(** Two keys whose key parts are in lower case are equal only if they are
    made of the same modifiers and the same key part. *)
Lemma indexKey_lower_inj ms1 ms2 s1 s2 :
  indexKey ms1 (Js.toLowerCase s1) = indexKey ms2 (Js.toLowerCase s2) →
  ms1 = ms2 ∧ Js.toLowerCase s1 = Js.toLowerCase s2.
Proof.
  destruct ms1 as [|m1 ms1], ms2 as [|m2 ms2];
    rewrite ?indexKey_nil, ?indexKey_cons; intros Heq.
  - split; [done|]. by injection Heq.
  - cbn [segments] in Heq. destruct m2; discriminate Heq.
  - cbn [segments] in Heq. destruct m1; discriminate Heq.
  - pose proof (segments_prefix _ _ _ _ Heq) as H12.
    symmetry in Heq. pose proof (segments_prefix _ _ _ _ Heq) as H21.
    assert (m1 :: ms1 = m2 :: ms2) as Hms by (by apply (anti_symm prefix)).
    split; [done|]. rewrite Hms in Heq. symmetry.
    by apply segments_key_inj in Heq.
Qed.


Lemma sorted_eq_perm ms1 ms2 : sorted ms1 = sorted ms2 → ms1 ≡ₚ ms2.
Proof.
  intros Heq. by rewrite <-(sorted_Permutation ms1), Heq, sorted_Permutation.
Qed.



(** X2: two definitions whose keys are written in lower case are filed
    under the same table key exactly when their modifiers arrays hold the
    same modifiers, each as often, and their keys are equal. *)
Theorem lowercase_definitions_collide_iff w r1 r2 :
  Js.toLowerCase (key (shortcuts w !!! r1)) = key (shortcuts w !!! r1) →
  Js.toLowerCase (key (shortcuts w !!! r2)) = key (shortcuts w !!! r2) →
  tableKey w r1 = tableKey w r2 ↔
  arrays w !!! modifiers (shortcuts w !!! r1)
    ≡ₚ arrays w !!! modifiers (shortcuts w !!! r2) ∧
  key (shortcuts w !!! r1) = key (shortcuts w !!! r2).
Proof.
  intros Hk1 Hk2. unfold tableKey. cbv zeta. split.
  - rewrite <-Hk1, <-Hk2 at 1. intros [Hms Hk]%indexKey_lower_inj.
    split; [by apply sorted_eq_perm|]. by rewrite <-Hk1, <-Hk2.
  - intros [Hp ->]. by rewrite (sorted_perm_eq _ _ Hp).
Qed.

Lemma lowercase_definitions_collide_iff_witness :
  tableKey TestSuite.world0 1 = tableKey TestSuite.world0 3 ↔
  arrays TestSuite.world0 !!! modifiers (shortcuts TestSuite.world0 !!! 1)
    ≡ₚ arrays TestSuite.world0 !!! modifiers (shortcuts TestSuite.world0 !!! 3) ∧
  key (shortcuts TestSuite.world0 !!! 1) = key (shortcuts TestSuite.world0 !!! 3).
Proof.
  apply (lowercase_definitions_collide_iff TestSuite.world0 1 3).
  - vm_compute. reflexivity.
  - vm_compute. reflexivity.
Defined.



(** ** Building again, and arrays that are already in order *)

Lemma sorted_fixpoint ms : Sorted modifier_le ms ↔ sorted ms = ms.
Proof.
  split.
  - intros Hs. apply (Sorted_unique modifier_le);
      [apply sorted_Sorted | done | apply sorted_Permutation].
  - intros <-. apply sorted_Sorted.
Qed.

Lemma sort_arrays_lookup_Some as_ h a :
  a ∈ as_ → sort_arrays as_ h !! a = Some (sorted (h !!! a)).
Proof.
  induction as_ as [|b as' IH]; [by intros ?%elem_of_nil|].
  cbn [sort_arrays]. intros Hin.
  destruct (decide (b = a)) as [->|Hne].
  - by rewrite lookup_insert_eq, sort_arrays_sorted.
  - rewrite lookup_insert_ne by done. apply IH.
    apply elem_of_cons in Hin as [->|Hin]; [by destruct Hne | done].
Qed.

(** Sorting again arrays that hold sorted elements writes what is there. *)
Lemma sort_arrays_id as_ h :
  Forall (λ a, ∃ ms, h !! a = Some ms ∧ sorted ms = ms) as_ →
  sort_arrays as_ h = h.
Proof.
  induction 1 as [|a as' (ms & Hms & Hfix) _ IH]; [done|].
  cbn [sort_arrays]. rewrite IH.
  apply insert_id. by rewrite (lookup_total_correct _ _ _ Hms), Hfix.
Qed.

Lemma table_of_ext w1 w2 map :
  (∀ r, tableKey w1 r = tableKey w2 r) → table_of w1 map = table_of w2 map.
Proof.
  intros Hk. induction map as [|r rs IH]; [done|].
  by rewrite !table_of_cons, Hk, IH.
Qed.

(** X4: building the table a second time from the same list, as a new
    render does when the list is a new reference, returns the same table
    and leaves the world exactly as the first build left it. *)
Theorem rebuild_is_idempotent w map :
  ∃ table w1,
    generateShorcutMap map w = (Normal table, w1) ∧
    generateShorcutMap map w1 = (Normal table, w1).
Proof.
  exists (table_of w map), (generateShorcutMap map w).2.
  split; [by rewrite generateShorcutMap_run|].
  rewrite (generateShorcutMap_run map (generateShorcutMap map w).2).
  f_equal.
  - f_equal. apply table_of_ext. intros r. apply tableKey_after.
  - rewrite generateShorcutMap_run. unfold set_arrays. cbn. f_equal.
    apply sort_arrays_id, Forall_forall. intros a Ha.
    eexists. split; [by apply sort_arrays_lookup_Some|]. apply sorted_idem.
Qed.

(** X5: the builder leaves what the caller reads from the listed
    definitions as it was exactly when the modifiers array of each of
    them is already in sorted order. *)
Theorem definitions_unchanged_iff_sorted w map :
  ∃ table w',
    generateShorcutMap map w = (Normal table, w') ∧
    (Forall (λ r, definition_at w' r = definition_at w r) map ↔
     Forall (λ r, Sorted modifier_le
                    (arrays w !!! modifiers (shortcuts w !!! r))) map).
Proof.
  eexists _, _. split; [apply generateShorcutMap_run|].
  assert (∀ r, r ∈ map →
    definition_at (set_arrays (sort_arrays
      ((λ r, modifiers (shortcuts w !!! r)) <$> map)) w) r = definition_at w r ↔
    Sorted modifier_le (arrays w !!! modifiers (shortcuts w !!! r))) as Hpt.
  { intros r Hr. unfold definition_at. cbn.
    rewrite sort_arrays_lookup, decide_True
      by (apply list_elem_of_fmap; by exists r).
    rewrite sorted_fixpoint. split; [by intros [= ->] | by intros ->]. }
  rewrite !Forall_forall. split; intros H r Hr; by apply Hpt, H.
Qed.

(** ** The hook from mount to unmount *)

Lemma filter_Forall_id {A} (P : A → Prop) `{!∀ x, Decision (P x)} (l : list A) :
  Forall P l → filter P l = l.
Proof.
  induction 1 as [|x l Hx _ IH]; [done|].
  by rewrite filter_cons_True, IH.
Qed.

(** One mount, in closed form. *)
Lemma useShortcuts_run cfg w :
  let h := {| fn_id := next_fn w; h_shortcutMap := table_of w (map cfg);
              h_silent := silent cfg |} in
  useShortcuts cfg w =
  (Normal (removeEventListener h),
   {| shortcuts := shortcuts w;
      arrays := sort_arrays ((λ r, modifiers (shortcuts w !!! r)) <$> map cfg)
                  (arrays w);
      listeners := if decide (next_fn w ∈ fn_id <$> listeners w)
                   then listeners w else listeners w ++ [h];
      next_fn := S (next_fn w);
      trace := trace w |}).
Proof.
  intros h. unfold useShortcuts.
  unfold mbind at 1, JS_bind at 1. rewrite generateShorcutMap_run.
  reflexivity.
Qed.

Lemma fresh_ids_not_registered w :
  fresh_ids w → next_fn w ∉ fn_id <$> listeners w.
Proof.
  intros Hfresh (h & Heq & Hin)%list_elem_of_fmap.
  apply (proj1 (Forall_forall _ _) Hfresh) in Hin. lia.
Qed.

(** X6: mounting the hook calls no action and logs nothing, and adds one
    listener to those of the document; after any keystrokes, the cleanup
    leaves the document with exactly the listeners it had before the
    mount, those of other components included. *)
Theorem mount_then_unmount_restores_listeners cfg w before :
  fresh_ids w →
  ∃ unbind w1 w3 h,
    useShortcuts cfg w = (Normal unbind, w1) ∧
    trace w1 = trace w ∧
    listeners w1 = listeners w ++ [h] ∧
    fresh_ids w1 ∧
    unbind (keydowns before w1) = (Normal tt, w3) ∧
    listeners w3 = listeners w.
Proof.
  intros Hfresh. pose proof (fresh_ids_not_registered w Hfresh) as Hnot.
  eexists _, _, _, _. split; [apply useShortcuts_run|]. cbn.
  rewrite decide_False by done.
  split; [reflexivity|]. split; [reflexivity|]. split.
  - unfold fresh_ids. cbn. apply Forall_app. split.
    + eapply Forall_impl; [exact Hfresh|]. cbn. lia.
    + apply Forall_singleton. cbn. lia.
  - unfold removeEventListener, set_listeners. split; [reflexivity|]. cbn.
    rewrite keydowns_listeners. cbn. rewrite filter_app. cbn.
    rewrite decide_False by (intros H; by apply H).
    rewrite filter_Forall_id; [apply app_nil_r|].
    eapply Forall_impl; [exact Hfresh|]. cbn. lia.
Qed.

Lemma mount_then_unmount_restores_listeners_witness :
  ∃ unbind w1 w3 h,
    useShortcuts TestSuite.SHORTCUT_CONFIG TestSuite.world0 = (Normal unbind, w1) ∧
    trace w1 = trace TestSuite.world0 ∧
    listeners w1 = listeners TestSuite.world0 ++ [h] ∧
    fresh_ids w1 ∧
    unbind (keydowns [TestSuite.ctrl_shift_o] w1) = (Normal tt, w3) ∧
    listeners w3 = listeners TestSuite.world0.
Proof.
  apply (mount_then_unmount_restores_listeners TestSuite.SHORTCUT_CONFIG
           TestSuite.world0 [TestSuite.ctrl_shift_o]).
  apply (bool_decide_unpack _). vm_compute. exact I.
Defined.

(** ** Keystrokes while the hook is mounted *)

Lemma calls_app t1 t2 : calls (t1 ++ t2) = calls t1 ++ calls t2.
Proof. apply omap_app. Qed.

Lemma logs_app t1 t2 : logs (t1 ++ t2) = logs t1 ++ logs t2.
Proof. apply omap_app. Qed.

(** The handler writes nothing but the trace. *)
Lemma handleKeyPress_heap table silent event w :
  shortcuts (handleKeyPress table silent event w).2 = shortcuts w ∧
  arrays (handleKeyPress table silent event w).2 = arrays w.
Proof.
  destruct (getShortcut table event) as [r|] eqn:Hr.
  - rewrite (handleKeyPress_matched _ _ _ _ r Hr). cbv zeta.
    destruct (act_fails _); [done|]. by destruct (Js.truthy silent).
  - by rewrite handleKeyPress_unmatched.
Qed.

(** With one listener, a keystroke is one run of the handler. *)
Lemma keydown_single h event w :
  listeners w = [h] →
  keydown event w =
  match handleKeyPress (h_shortcutMap h) (h_silent h) event w with
  | (Normal _, w') => w'
  | (Throw e, w') => emit (UnhandledRejection e) w'
  end.
Proof.
  intros Hl. unfold keydown. rewrite Hl. cbn.
  by destruct (handleKeyPress _ _ _ w) as [[[]|e] w'].
Qed.

Lemma keydown_single_frame h event w :
  listeners w = [h] →
  listeners (keydown event w) = [h] ∧
  shortcuts (keydown event w) = shortcuts w ∧
  arrays (keydown event w) = arrays w.
Proof.
  intros Hl. rewrite (keydown_single h) by done.
  pose proof (handleKeyPress_listeners (h_shortcutMap h) (h_silent h) event w) as H1.
  pose proof (handleKeyPress_heap (h_shortcutMap h) (h_silent h) event w) as [H2 H3].
  destruct (handleKeyPress _ _ _ w) as [[[]|e] w']; cbn in *;
    by rewrite H1, H2, H3.
Qed.

Lemma keydown_single_calls h event w :
  listeners w = [h] →
  calls (trace (keydown event w)) =
  calls (trace w) ++
  match getShortcut (h_shortcutMap h) event with
  | Some r => [act_id (action (shortcuts w !!! r))]
  | None => []
  end.
Proof.
  intros Hl. rewrite (keydown_single h) by done.
  destruct (getShortcut (h_shortcutMap h) event) as [r|] eqn:Hr.
  - rewrite (handleKeyPress_matched _ _ _ _ r Hr). cbv zeta.
    destruct (act_fails _); [|destruct (Js.truthy _)]; cbn;
      rewrite !calls_app; cbn; by rewrite ?app_nil_r.
  - rewrite handleKeyPress_unmatched by done. by rewrite app_nil_r.
Qed.

Lemma keydown_single_logs_silent h event w :
  listeners w = [h] → Js.truthy (h_silent h) = true →
  logs (trace (keydown event w)) = logs (trace w).
Proof.
  intros Hl Hs. rewrite (keydown_single h) by done.
  destruct (getShortcut (h_shortcutMap h) event) as [r|] eqn:Hr.
  - rewrite (handleKeyPress_matched _ _ _ _ r Hr). cbv zeta. rewrite Hs.
    destruct (act_fails _); cbn; rewrite !logs_app; cbn; by rewrite ?app_nil_r.
  - by rewrite handleKeyPress_unmatched.
Qed.

Lemma getShortcut_table_of w map event :
  match getShortcut (table_of w map) event with
  | Some r => [act_id (action (shortcuts w !!! r))]
  | None => []
  end = first_match w map event.
Proof.
  unfold getShortcut, first_match. rewrite table_of_lookup.
  by destruct (list_find _ map) as [[]|].
Qed.

Lemma keydowns_single_calls h events w :
  listeners w = [h] →
  calls (trace (keydowns events w)) =
  calls (trace w) ++
  concat ((λ event,
             match getShortcut (h_shortcutMap h) event with
             | Some r => [act_id (action (shortcuts w !!! r))]
             | None => []
             end) <$> events).
Proof.
  revert w. induction events as [|event events IH]; intros w Hl.
  - cbn. by rewrite app_nil_r.
  - destruct (keydown_single_frame h event w Hl) as (Hl' & Hs' & _).
    change (keydowns (event :: events) w) with (keydowns events (keydown event w)).
    rewrite IH by done. rewrite (keydown_single_calls h) by done.
    rewrite Hs'. cbn. by rewrite <-app_assoc.
Qed.

Lemma keydowns_single_logs_silent h events w :
  listeners w = [h] → Js.truthy (h_silent h) = true →
  logs (trace (keydowns events w)) = logs (trace w).
Proof.
  revert w. induction events as [|event events IH]; intros w Hl Hs; [done|].
  destruct (keydown_single_frame h event w Hl) as (Hl' & _).
  change (keydowns (event :: events) w) with (keydowns events (keydown event w)).
  rewrite IH by done. by apply (keydown_single_logs_silent h).
Qed.

(** X7: with the hook mounted, each keystroke of a sequence calls the
    action of the earliest listed definition filed under its key, and no
    action when there is none: at most one action per keystroke, in the
    order of the keystrokes, whether or not earlier actions failed. *)
Theorem keystrokes_call_first_matches cfg w events :
  listeners w = [] →
  ∃ unbind w1,
    useShortcuts cfg w = (Normal unbind, w1) ∧
    calls (trace (keydowns events w1)) =
    calls (trace w) ++ concat (first_match w (map cfg) <$> events).
Proof.
  intros Hnil. eexists _, _. split; [apply useShortcuts_run|].
  rewrite Hnil. cbn [fmap list_fmap].
  rewrite decide_False by apply not_elem_of_nil.
  rewrite (keydowns_single_calls
             {| fn_id := next_fn w; h_shortcutMap := table_of w (map cfg);
                h_silent := silent cfg |}) by reflexivity.
  cbn. do 2 f_equal. apply list_fmap_ext. intros _ event _.
  apply getShortcut_table_of.
Qed.

Lemma keystrokes_call_first_matches_witness :
  ∃ unbind w1,
    useShortcuts TestSuite.SHORTCUT_CONFIG TestSuite.world0 = (Normal unbind, w1) ∧
    calls (trace (keydowns [TestSuite.ctrl_shift_o; TestSuite.ctrl_alt_p;
                            TestSuite.ctrl_alt_i] w1)) =
    calls (trace TestSuite.world0) ++
    concat (first_match TestSuite.world0 (map TestSuite.SHORTCUT_CONFIG) <$>
            [TestSuite.ctrl_shift_o; TestSuite.ctrl_alt_p; TestSuite.ctrl_alt_i]).
Proof.
  apply (keystrokes_call_first_matches TestSuite.SHORTCUT_CONFIG TestSuite.world0).
  reflexivity.
Defined.

(** X8: with [silent] true, no sequence of keystrokes adds a line to the
    console, whatever the definitions and whether their actions complete
    or fail. *)
Theorem silent_hook_never_logs cfg w events :
  listeners w = [] →
  silent cfg = Some true →
  ∃ unbind w1,
    useShortcuts cfg w = (Normal unbind, w1) ∧
    logs (trace (keydowns events w1)) = logs (trace w).
Proof.
  intros Hnil Hsilent. eexists _, _. split; [apply useShortcuts_run|].
  rewrite Hnil. cbn [fmap list_fmap].
  rewrite decide_False by apply not_elem_of_nil.
  rewrite (keydowns_single_logs_silent
             {| fn_id := next_fn w; h_shortcutMap := table_of w (map cfg);
                h_silent := silent cfg |}); [reflexivity | reflexivity |].
  cbn. by rewrite Hsilent.
Qed.

Lemma silent_hook_never_logs_witness :
  ∃ unbind w1,
    useShortcuts TestSuite.SHORTCUT_CONFIG TestSuite.world0 = (Normal unbind, w1) ∧
    logs (trace (keydowns [TestSuite.ctrl_shift_o; TestSuite.ctrl_alt_i] w1))
    = logs (trace TestSuite.world0).
Proof.
  apply (silent_hook_never_logs TestSuite.SHORTCUT_CONFIG TestSuite.world0).
  - reflexivity.
  - reflexivity.
Defined.



(** ** The shape of an event's key *)

(** X10: the key of an event lists its active modifiers in the order
    alt, ctrl, meta, shift, each followed by a dash, and ends with the
    event's key in lower case; with no active modifier it is a dash and
    the key. *)
Theorem getEventMapKey_shape event :
  getEventMapKey event =
  (if ev_altKey event then "altKey-" else "") +:+
  (if ev_ctrlKey event then "ctrlKey-" else "") +:+
  (if ev_metaKey event then "metaKey-" else "") +:+
  (if ev_shiftKey event then "shiftKey-" else "") +:+
  (if ev_altKey event || ev_ctrlKey event || ev_metaKey event || ev_shiftKey event
   then "" else "-") +:+
  Js.toLowerCase (ev_key event).
Proof.
  destruct event as [[] [] [] [] k]; reflexivity.
Qed.

(** ** The order of the list *)

Lemma sort_arrays_lookup_other as_ h a :
  a ∉ as_ → sort_arrays as_ h !! a = h !! a.
Proof.
  induction as_ as [|b as' IH]; [done|]. cbn [sort_arrays].
  intros Hnot. apply not_elem_of_cons in Hnot as [Hne Hnot].
  rewrite lookup_insert_ne by done. by apply IH.
Qed.

Lemma sort_arrays_perm as1 as2 h :
  as1 ≡ₚ as2 → sort_arrays as1 h = sort_arrays as2 h.
Proof.
  intros Hp. apply map_eq. intros a.
  destruct (decide (a ∈ as1)) as [Hin|Hnot].
  - rewrite !sort_arrays_lookup_Some; [done| by rewrite <-Hp | done].
  - rewrite !sort_arrays_lookup_other; [done| by rewrite <-Hp | done].
Qed.

(** Without collisions an entry holds any listed definition with its key. *)
Lemma table_of_NoDup_lookup w map k r :
  NoDup (tableKey w <$> map) →
  table_of w map !! k = Some r ↔ r ∈ map ∧ tableKey w r = k.
Proof.
  intros Hnd. split; [apply table_of_Some|].
  intros [[i Hi]%list_elem_of_lookup_1 <-].
  apply (table_of_first w map i r Hi). intros j r' Hlt Hj Heq.
  assert (j = i); [|lia].
  apply (NoDup_lookup _ j i (tableKey w r) Hnd);
    rewrite list_lookup_fmap; [rewrite Hj; cbn; by f_equal | by rewrite Hi].
Qed.

(** X11: when no two listed definitions have the same table key, the
    order of the list does not matter: a list with the same definitions
    in another order builds the same table and leaves the same world. *)
Theorem table_independent_of_order_without_collisions w map1 map2 :
  NoDup (tableKey w <$> map1) →
  map1 ≡ₚ map2 →
  ∃ table w',
    generateShorcutMap map1 w = (Normal table, w') ∧
    generateShorcutMap map2 w = (Normal table, w').
Proof.
  intros Hnd Hp. eexists _, _. split; [apply generateShorcutMap_run|].
  rewrite generateShorcutMap_run. f_equal.
  - f_equal. apply map_eq. intros k. apply option_eq. intros r.
    rewrite !table_of_NoDup_lookup; [by rewrite Hp | done | by rewrite <-Hp].
  - unfold set_arrays. f_equal. apply sort_arrays_perm. by rewrite Hp.
Qed.

Lemma table_independent_of_order_without_collisions_witness :
  ∃ table w',
    generateShorcutMap [1; 2] TestSuite.world0 = (Normal table, w') ∧
    generateShorcutMap [2; 1] TestSuite.world0 = (Normal table, w').
Proof.
  apply (table_independent_of_order_without_collisions TestSuite.world0 [1; 2] [2; 1]).
  - apply (bool_decide_unpack _). vm_compute. exact I.
  - apply Permutation_swap.
Defined.
